(** * arc4random_uniform: Lemire's nearly-divisionless bounded sampling

    A shallow embedding of [sys/libkern/arc4random_uniform.c] and the
    properties of its result: range, unbiasedness, the residue trick,
    the behaviour of the rejection loop and of the limit 0 corner. *)

From Stdlib Require Import ZArith Lia Bool List.
Import ListNotations.

Local Open Scope Z_scope.

(** ** Fixed-width unsigned arithmetic

    [uint32_t] and [uint64_t] values are integers in [0, 2^32) and
    [0, 2^64); every C operation is followed by its wrap-around. *)

Module Int.

Definition modulus32 : Z := 2 ^ 32.
Definition modulus64 : Z := 2 ^ 64.

(** The casts [(uint32_t)(x)] and [(uint64_t)(x)]. *)
Definition u32 (x : Z) : Z := x mod modulus32.
Definition u64 (x : Z) : Z := x mod modulus64.

(** Unary minus on a [uint32_t] operand, as in [(uint32_t)(-limit)]. *)
Definition neg32 (x : Z) : Z := u32 (- x).

(** [(uint64_t)a * (uint64_t)b]. *)
Definition mul64 (a b : Z) : Z := u64 (u64 a * u64 b).

(** [(uint32_t)(num)] and [(uint32_t)(num >> 32)]. *)
Definition lo32 (num : Z) : Z := u32 num.
Definition hi32 (num : Z) : Z := u32 (Z.shiftr num 32).

(** The values a [uint32_t] variable can hold. *)
Definition is_u32 (x : Z) : Prop := 0 <= x < modulus32.
Definition UINT32_MAX : Z := modulus32 - 1.

End Int.

Import Int.

(** ** The random word source

    [arc4random()] has hidden state.  It is modelled as the unbounded
    sequence of words it is going to hand out, together with the number
    of words handed out so far. *)

Record keystream : Type := Keystream {
  words : nat -> Z;
  drawn : nat
}.

(** [uint32_t arc4random(void)]: the next word, and the advanced state. *)
Definition arc4random (s : keystream) : Z * keystream :=
  (u32 (words s (drawn s)), Keystream (words s) (S (drawn s))).

(** The [i]-th word that [s] will hand out from now on. *)
Definition nth_word (s : keystream) (i : nat) : Z :=
  u32 (words s (drawn s + i)).

(** The state after [n] more draws. *)
Definition advance (n : nat) (s : keystream) : keystream :=
  Keystream (words s) (drawn s + n).

(** ** Outcomes of a call

    A computation threads the keystream and either finishes with a
    value, executes [%] with a zero divisor, or is still looping when
    the iteration budget [fuel] given to the [while] loop is spent. *)

Inductive outcome (A : Type) : Type :=
| Done (a : A) (s : keystream)
| DivideByZero
| OutOfFuel.

Arguments Done {A} a s.
Arguments DivideByZero {A}.
Arguments OutOfFuel {A}.

Definition M (A : Type) : Type := keystream -> outcome A.

Definition ret {A : Type} (a : A) : M A := fun s => Done a s.

Definition bind {A B : Type} (m : M A) (k : A -> M B) : M B :=
  fun s =>
    match m s with
    | Done a s' => k a s'
    | DivideByZero => DivideByZero
    | OutOfFuel => OutOfFuel
    end.

Notation "x <- m ;; k" := (bind m (fun x => k))
  (at level 61, m at next level, right associativity).

Definition draw : M Z :=
  fun s => let (w, s') := arc4random s in Done w s'.

Definition spent {A : Type} : M A := fun _ => OutOfFuel.

(** [a % b] on [uint32_t] operands. *)
Definition umod32 (a b : Z) : M Z :=
  fun s => if b =? 0 then DivideByZero else Done (a mod b) s.

(** ** The function *)

(** [while ((uint32_t)(num) < residue)
       num = (uint64_t)arc4random() * (uint64_t)limit;]
    The loop yields the final [num]; [fuel] bounds the number of times
    its body runs. *)
Fixpoint resample (fuel : nat) (limit residue num : Z) : M Z :=
  if lo32 num <? residue then
    match fuel with
    | O => spent
    | S fuel' =>
        w <- draw ;;
        resample fuel' limit residue (mul64 w limit)
    end
  else ret num.

Definition arc4random_uniform (fuel : nat) (limit : Z) : M Z :=
  w <- draw ;;
  let num := mul64 w limit in
  num <- (if lo32 num <? limit then
            residue <- umod32 (neg32 limit) limit ;;
            resample fuel limit residue num
          else ret num) ;;
  ret (hi32 num).

(** ** Vocabulary of the algorithm *)

(** The 32.32 fixed-point product of a word and the limit, its fraction
    part and its integer part. *)
Definition product (limit w : Z) : Z := mul64 w limit.
Definition frac (limit w : Z) : Z := lo32 (product limit w).
Definition candidate (limit w : Z) : Z := hi32 (product limit w).

(** The resample threshold [(uint32_t)(-limit) % limit]. *)
Definition residue (limit : Z) : Z := neg32 limit mod limit.

(** The fast-path test [frac >= limit] (the negation of the [if] guard)
    and the exact test [frac >= residue] (the negation of the [while]
    guard). *)
Definition fast_accepts (limit w : Z) : bool := negb (frac limit w <? limit).
Definition accepts (limit w : Z) : bool := negb (frac limit w <? residue limit).

(** The [while] loop entered with the next word of the source as the
    current sample. *)
Definition scan (fuel : nat) (limit r : Z) (s : keystream) : outcome Z :=
  resample fuel limit r (product limit (nth_word s 0)) (advance 1 s).

(** A call returns [v] leaving the source in state [s'] when some
    iteration budget is enough for it; it never returns when every
    budget runs out. *)
Definition returns (limit : Z) (s : keystream) (v : Z) (s' : keystream) : Prop :=
  exists fuel, arc4random_uniform fuel limit s = Done v s'.
Definition never_returns (limit : Z) (s : keystream) : Prop :=
  forall fuel, arc4random_uniform fuel limit s = OutOfFuel.

(** The function has no error channel: an argument it refused could
    only show as a call that hands back no value, whatever the budget. *)
Definition rejects_argument (limit : Z) (s : keystream) : Prop :=
  forall fuel v s', arc4random_uniform fuel limit s <> Done v s'.

(** Number of values [w] in [[0, n)] that satisfy [P]. *)
Fixpoint count_below (P : Z -> bool) (n : nat) : Z :=
  match n with
  | O => 0
  | S n' => count_below P n' + (if P (Z.of_nat n') then 1 else 0)
  end.

(** Number of 32-bit words that satisfy [P]. *)
Definition count_words (P : Z -> bool) : Z :=
  count_below P (Z.to_nat modulus32).

(** The words that are accepted and whose candidate is [v]. *)
Definition yields (limit v w : Z) : bool :=
  accepts limit w && (candidate limit w =? v).

(** First word of the run of [floor(2^32 / limit)] consecutive words
    that yield [v]. *)
Definition first_yielding (limit v : Z) : Z :=
  (v * modulus32 + residue limit + limit - 1) / limit.

(** Sources used in the examples. *)
Definition replay (f : nat -> Z) : keystream := Keystream f 0.
Definition constant_source (w : Z) : keystream := replay (fun _ => w).
Definition counting_source : keystream := replay Z.of_nat.
Definition two_words (w1 w2 : Z) : keystream :=
  replay (fun i => match i with O => w1 | _ => w2 end).
Definition zeros_then (n : nat) (w : Z) : keystream :=
  replay (fun i => if (i <? n)%nat then 0 else w).

(** Sum of [g v] for [v] in [[0, m)]. *)
Fixpoint sum_below (g : Z -> Z) (m : nat) : Z :=
  match m with
  | O => 0
  | S m' => sum_below g m' + g (Z.of_nat m')
  end.

(** The negations of the two tests: the [while] guard and the [if]
    guard, on the product of a word. *)
Definition rejects (limit w : Z) : bool := frac limit w <? residue limit.
Definition takes_slow_path (limit w : Z) : bool := frac limit w <? limit.

(** First word whose candidate is [v]. *)
Definition first_with_candidate (limit v : Z) : Z :=
  (v * modulus32 + limit - 1) / limit.

(** A source that hands out the words of [l], then zeros. *)
Definition replay_list (l : list Z) : keystream :=
  replay (fun i => nth i l 0).

(** The call on the words of [l] returns [v] when it has drawn the
    whole of [l] and nothing more. *)
Definition returns_after (limit v : Z) (l : list Z) : bool :=
  match arc4random_uniform (length l) limit (replay_list l) with
  | Done v' s' => (v' =? v) && (drawn s' =? length l)%nat
  | DivideByZero => false
  | OutOfFuel => false
  end.

(** Number of sequences of [n] 32-bit words that satisfy [P]. *)
Fixpoint count_seqs (n : nat) (P : list Z -> bool) : Z :=
  match n with
  | O => if P [] then 1 else 0
  | S n' =>
      sum_below (fun w => count_seqs n' (fun l => P (w :: l)))
                (Z.to_nat modulus32)
  end.

(** ** Arithmetic of the fixed-point product *)

Section Arithmetic.

Lemma modulus32_eq : modulus32 = 4294967296.
Proof. reflexivity. Qed.

Lemma modulus64_eq : modulus64 = modulus32 * modulus32.
Proof. reflexivity. Qed.

Lemma u32_range x : is_u32 (u32 x).
Proof. unfold is_u32, u32. apply Z.mod_pos_bound. rewrite modulus32_eq. lia. Qed.

Lemma u32_small x : is_u32 x -> u32 x = x.
Proof. unfold is_u32, u32. intros H. now apply Z.mod_small. Qed.

Lemma mul64_exact w limit :
  is_u32 w -> is_u32 limit -> mul64 w limit = w * limit.
Proof.
  unfold is_u32, mul64, u64. intros Hw Hl.
  rewrite modulus64_eq.
  rewrite (Z.mod_small w), (Z.mod_small limit) by nia.
  apply Z.mod_small. nia.
Qed.

Lemma frac_eq limit w :
  is_u32 w -> is_u32 limit -> frac limit w = (w * limit) mod modulus32.
Proof.
  intros Hw Hl. unfold frac, product, lo32, u32. now rewrite mul64_exact.
Qed.

Lemma candidate_eq limit w :
  is_u32 w -> is_u32 limit -> candidate limit w = (w * limit) / modulus32.
Proof.
  intros Hw Hl. unfold candidate, product, hi32.
  rewrite mul64_exact by assumption.
  rewrite Z.shiftr_div_pow2 by lia. fold modulus32.
  apply u32_small. unfold is_u32 in *. split.
  - apply Z.div_pos; nia.
  - apply Z.div_lt_upper_bound; nia.
Qed.

(** The product splits into its integer and fraction parts. *)
Lemma product_split limit w :
  is_u32 w -> is_u32 limit ->
  w * limit = modulus32 * candidate limit w + frac limit w.
Proof.
  intros Hw Hl. rewrite frac_eq, candidate_eq by assumption.
  apply Z.div_mod. rewrite modulus32_eq. lia.
Qed.

Lemma frac_range limit w : is_u32 (frac limit w).
Proof. apply u32_range. Qed.

Lemma candidate_lt_limit limit w :
  is_u32 w -> 0 < limit < modulus32 -> candidate limit w < limit.
Proof.
  intros Hw Hl. rewrite candidate_eq by (unfold is_u32 in *; lia).
  unfold is_u32 in *. apply Z.div_lt_upper_bound; nia.
Qed.

Lemma candidate_nonneg limit w : 0 <= candidate limit w.
Proof. apply u32_range. Qed.

(** The unsigned negation of a positive [limit] is [2^32 - limit]. *)
Lemma neg32_pos limit :
  0 < limit < modulus32 -> neg32 limit = modulus32 - limit.
Proof.
  intros H. unfold neg32, u32.
  replace (- limit) with (modulus32 - limit + (-1) * modulus32) by ring.
  rewrite Z.mod_add by (rewrite modulus32_eq; lia).
  apply Z.mod_small. lia.
Qed.

Lemma residue_eq limit :
  0 < limit < modulus32 -> residue limit = modulus32 mod limit.
Proof.
  intros H. unfold residue. rewrite neg32_pos by assumption.
  replace (modulus32 - limit) with (modulus32 + (-1) * limit) by ring.
  apply Z.mod_add. lia.
Qed.

Lemma residue_range limit :
  0 < limit < modulus32 -> 0 <= residue limit < limit.
Proof. intros H. unfold residue. apply Z.mod_pos_bound. lia. Qed.

(** [2^32 - residue] is the multiple [floor(2^32 / limit) * limit]. *)
Lemma valid_range_multiple limit :
  0 < limit < modulus32 ->
  modulus32 = limit * (modulus32 / limit) + residue limit.
Proof.
  intros H. rewrite residue_eq by assumption. apply Z.div_mod. lia.
Qed.

Lemma accepts_spec limit w :
  accepts limit w = true <-> residue limit <= frac limit w.
Proof.
  unfold accepts. rewrite negb_true_iff, Z.ltb_ge. reflexivity.
Qed.

Lemma fast_accepts_spec limit w :
  fast_accepts limit w = true <-> limit <= frac limit w.
Proof.
  unfold fast_accepts. rewrite negb_true_iff, Z.ltb_ge. reflexivity.
Qed.

End Arithmetic.

(** ** Running the function *)

Section Execution.

Lemma advance_advance n m s : advance n (advance m s) = advance (m + n) s.
Proof. unfold advance. simpl. f_equal. lia. Qed.

Lemma nth_word_advance n i s : nth_word (advance n s) i = nth_word s (n + i).
Proof. unfold nth_word, advance. simpl. do 2 f_equal. lia. Qed.

Lemma nth_word_range s i : is_u32 (nth_word s i).
Proof. apply u32_range. Qed.

Lemma draw_eq s : draw s = Done (nth_word s 0) (advance 1 s).
Proof.
  unfold draw, arc4random, nth_word, advance.
  now rewrite Nat.add_0_r, Nat.add_1_r.
Qed.

Lemma resample_accept fuel limit r num s :
  r <= lo32 num -> resample fuel limit r num s = Done num s.
Proof.
  intros H. apply Z.ltb_ge in H.
  destruct fuel; unfold resample; now rewrite H.
Qed.

Lemma resample_spent limit r num s :
  lo32 num < r -> resample 0 limit r num s = OutOfFuel.
Proof. intros H. apply Z.ltb_lt in H. unfold resample. now rewrite H. Qed.

Lemma resample_reject fuel limit r num s :
  lo32 num < r ->
  resample (S fuel) limit r num s =
  resample fuel limit r (product limit (nth_word s 0)) (advance 1 s).
Proof.
  intros H. apply Z.ltb_lt in H.
  change (resample (S fuel) limit r num s)
    with ((if lo32 num <? r
           then w <- draw ;; resample fuel limit r (mul64 w limit)
           else ret num) s).
  rewrite H. unfold bind. now rewrite draw_eq.
Qed.

(** The loop stops at the first word whose fraction reaches [r], when
    the budget allows the redraws before it. *)
Lemma scan_first k : forall fuel limit r s,
  (forall i, (i < k)%nat -> frac limit (nth_word s i) < r) ->
  r <= frac limit (nth_word s k) ->
  (k <= fuel)%nat ->
  scan fuel limit r s = Done (product limit (nth_word s k)) (advance (S k) s).
Proof.
  induction k as [|k IH]; intros fuel limit r s Hrej Hacc Hfuel.
  - unfold scan. now apply resample_accept.
  - destruct fuel as [|fuel]; [lia|].
    unfold scan. rewrite resample_reject by (apply (Hrej 0%nat); lia).
    fold (scan fuel limit r (advance 1 s)).
    rewrite IH.
    + rewrite nth_word_advance, advance_advance. reflexivity.
    + intros i Hi. rewrite nth_word_advance. apply Hrej. lia.
    + now rewrite nth_word_advance.
    + lia.
Qed.

(** The budget runs out when each word it reaches is rejected. *)
Lemma scan_spent fuel : forall limit r s,
  (forall i, (i <= fuel)%nat -> frac limit (nth_word s i) < r) ->
  scan fuel limit r s = OutOfFuel.
Proof.
  induction fuel as [|fuel IH]; intros limit r s Hrej.
  - unfold scan. apply resample_spent. apply (Hrej 0%nat). lia.
  - unfold scan. rewrite resample_reject by (apply (Hrej 0%nat); lia).
    apply IH. intros i Hi. rewrite nth_word_advance. apply Hrej. lia.
Qed.

(** For a positive limit the whole call is the exact rejection loop:
    the fast path only skips the computation of the residue. *)
Lemma uniform_scan fuel limit s :
  0 < limit < modulus32 ->
  arc4random_uniform fuel limit s =
  match scan fuel limit (residue limit) s with
  | Done num s' => Done (hi32 num) s'
  | DivideByZero => DivideByZero
  | OutOfFuel => OutOfFuel
  end.
Proof.
  intros Hl. unfold arc4random_uniform, bind at 1. rewrite draw_eq.
  cbv zeta. fold (product limit (nth_word s 0)).
  unfold bind at 1.
  destruct (Z.ltb_spec (lo32 (product limit (nth_word s 0))) limit) as [Hlt|Hge].
  - unfold bind at 1, umod32.
    destruct (Z.eqb_spec limit 0) as [H0|_]; [lia|].
    fold (residue limit). reflexivity.
  - unfold scan. rewrite resample_accept; [reflexivity|].
    pose proof (residue_range limit Hl). lia.
Qed.

(** With limit 0 the [if] guard is false whatever the word is. *)
Lemma guard_zero w : (lo32 (mul64 w 0) <? 0) = false.
Proof. apply Z.ltb_ge. apply u32_range. Qed.

Lemma mul64_zero w : mul64 w 0 = 0.
Proof.
  unfold mul64, u64. rewrite (Z.mod_0_l modulus64) by discriminate.
  now rewrite Z.mul_0_r.
Qed.

Lemma uniform_zero fuel s :
  arc4random_uniform fuel 0 s = Done 0 (advance 1 s).
Proof.
  unfold arc4random_uniform, bind at 1. rewrite draw_eq. cbv zeta.
  unfold bind. rewrite guard_zero. unfold ret. now rewrite mul64_zero.
Qed.

End Execution.

(** ** Counting the words behind each result *)

Section Counting.

(** A predicate that holds exactly on [[a, b)] is satisfied by [b - a]
    values. *)
Lemma count_below_interval P a b n :
  0 <= a <= b -> b <= Z.of_nat n ->
  (forall w, 0 <= w < Z.of_nat n -> (P w = true <-> a <= w < b)) ->
  count_below P n = b - a.
Proof.
  revert a b. induction n as [|n IH]; intros a b Hab Hb HP.
  - simpl. lia.
  - cbn [count_below].
    assert (Hn : 0 <= Z.of_nat n < Z.of_nat (S n)) by lia.
    destruct (P (Z.of_nat n)) eqn:E.
    + apply (HP _ Hn) in E.
      rewrite (IH a (Z.of_nat n)); [lia|lia|lia|].
      intros w Hw. rewrite HP by lia. lia.
    + assert (Hout : ~ (a <= Z.of_nat n < b)).
      { intros H. apply (HP _ Hn) in H. congruence. }
      destruct (Z_lt_le_dec (Z.of_nat n) a) as [Hlt|Hle].
      * rewrite (IH (Z.of_nat n) (Z.of_nat n)); [lia|lia|lia|].
        intros w Hw. rewrite HP by lia. lia.
      * rewrite (IH a b); [lia|lia|lia|].
        intros w Hw. rewrite HP by lia. lia.
Qed.

Lemma yields_spec limit v w :
  yields limit v w = true <->
  residue limit <= frac limit w /\ candidate limit w = v.
Proof.
  unfold yields. rewrite andb_true_iff, accepts_spec, Z.eqb_eq. reflexivity.
Qed.

(** Being accepted with candidate [v] is a condition on the product. *)
Lemma yields_product limit v w :
  is_u32 w -> 0 < limit < modulus32 ->
  (yields limit v w = true <->
   v * modulus32 + residue limit <= w * limit < (v + 1) * modulus32).
Proof.
  intros Hw Hl. rewrite yields_spec.
  assert (Hlim : is_u32 limit) by (unfold is_u32; lia).
  pose proof (product_split limit w Hw Hlim) as Hsplit.
  pose proof (frac_range limit w) as Hf. unfold is_u32 in Hf.
  pose proof (residue_range limit Hl) as Hr.
  generalize dependent (frac limit w). generalize dependent (candidate limit w).
  generalize dependent (residue limit). intros r Hr c f Hsplit Hf.
  split.
  - intros [Hrf Hc]. subst c. lia.
  - intros [Hlo Hhi].
    assert (c = v) by nia. subst c. lia.
Qed.

Lemma yields_interval limit v w :
  is_u32 w -> 0 < limit < modulus32 -> 0 <= v < limit ->
  (yields limit v w = true <->
   first_yielding limit v <= w < first_yielding limit v + modulus32 / limit).
Proof.
  intros Hw Hl Hv. rewrite yields_product by assumption.
  pose proof (valid_range_multiple limit Hl) as HM.
  pose proof (residue_range limit Hl) as Hr.
  unfold first_yielding.
  set (t := v * modulus32 + residue limit) in *.
  set (q := modulus32 / limit) in *.
  replace ((v + 1) * modulus32) with (t + limit * q) by (unfold t; lia).
  replace (t + limit - 1) with (t + (limit - 1)) by ring.
  pose proof (Z.div_mod (t + (limit - 1)) limit ltac:(lia)) as Hdm.
  pose proof (Z.mod_pos_bound (t + (limit - 1)) limit ltac:(lia)) as Hmb.
  set (a := (t + (limit - 1)) / limit) in *.
  generalize dependent ((t + (limit - 1)) mod limit). intros m Hdm Hmb.
  split; intros [H1 H2]; split; nia.
Qed.

Lemma first_yielding_bounds limit v :
  0 < limit < modulus32 -> 0 <= v < limit ->
  0 <= first_yielding limit v /\
  first_yielding limit v + modulus32 / limit <= modulus32.
Proof.
  intros Hl Hv.
  pose proof (valid_range_multiple limit Hl) as HM.
  pose proof (residue_range limit Hl) as Hr.
  unfold first_yielding.
  set (t := v * modulus32 + residue limit) in *.
  set (q := modulus32 / limit) in *.
  assert (Ht : 0 <= t) by (unfold t; nia).
  assert (Hq : 0 <= q) by (apply Z.div_pos; lia).
  replace (t + limit - 1) with (t + (limit - 1)) by ring.
  pose proof (Z.div_mod (t + (limit - 1)) limit ltac:(lia)) as Hdm.
  pose proof (Z.mod_pos_bound (t + (limit - 1)) limit ltac:(lia)) as Hmb.
  set (a := (t + (limit - 1)) / limit) in *.
  generalize dependent ((t + (limit - 1)) mod limit). intros m Hdm Hmb.
  assert (Htop : t + limit * q <= limit * modulus32) by (unfold t; nia).
  split; nia.
Qed.

Lemma count_yields limit v :
  0 < limit < modulus32 -> 0 <= v < limit ->
  count_words (yields limit v) = modulus32 / limit.
Proof.
  intros Hl Hv. unfold count_words.
  destruct (first_yielding_bounds limit v Hl Hv) as [Ha Hb].
  assert (HM : Z.of_nat (Z.to_nat modulus32) = modulus32)
    by (apply Z2Nat.id; lia).
  assert (Hq : 0 <= modulus32 / limit) by (apply Z.div_pos; lia).
  rewrite (count_below_interval _ (first_yielding limit v)
             (first_yielding limit v + modulus32 / limit)).
  - lia.
  - lia.
  - rewrite HM. exact Hb.
  - rewrite HM. intros w Hw. now apply yields_interval.
Qed.

End Counting.

(** ** The call as a search for the first accepted word *)

Section FirstAccepted.

Lemma limit_range limit :
  1 <= limit <= UINT32_MAX -> 0 < limit < modulus32.
Proof. unfold UINT32_MAX. lia. Qed.

Lemma accepts_false limit w :
  accepts limit w = false <-> frac limit w < residue limit.
Proof. unfold accepts. rewrite negb_false_iff, Z.ltb_lt. reflexivity. Qed.

Lemma uniform_first k fuel limit s :
  0 < limit < modulus32 ->
  (forall j, (j < k)%nat -> accepts limit (nth_word s j) = false) ->
  accepts limit (nth_word s k) = true ->
  (k <= fuel)%nat ->
  arc4random_uniform fuel limit s =
  Done (candidate limit (nth_word s k)) (advance (S k) s).
Proof.
  intros Hl Hrej Hacc Hfuel. rewrite uniform_scan by assumption.
  rewrite (scan_first k); try assumption.
  - reflexivity.
  - intros j Hj. apply accepts_false. now apply Hrej.
  - now apply accepts_spec.
Qed.

Lemma uniform_spent fuel limit s :
  0 < limit < modulus32 ->
  (forall j, (j <= fuel)%nat -> accepts limit (nth_word s j) = false) ->
  arc4random_uniform fuel limit s = OutOfFuel.
Proof.
  intros Hl Hrej. rewrite uniform_scan by assumption.
  rewrite scan_spent; [reflexivity|].
  intros j Hj. apply accepts_false. now apply Hrej.
Qed.

(** Up to any index, either some word is the first to pass a test or
    none passes it. *)
Lemma first_or_none (P : nat -> bool) n :
  (exists k, (k <= n)%nat /\ P k = true /\
             forall j, (j < k)%nat -> P j = false) \/
  (forall j, (j <= n)%nat -> P j = false).
Proof.
  induction n as [|n [IH|IH]].
  - destruct (P 0%nat) eqn:E.
    + left. exists 0%nat. repeat split; [lia|assumption|]. intros j Hj. lia.
    + right. intros j Hj. now replace j with 0%nat by lia.
  - left. destruct IH as (k & Hk & HP & Hmin). exists k.
    repeat split; [lia|assumption|assumption].
  - destruct (P (S n)) eqn:E.
    + left. exists (S n). repeat split; [lia|assumption|].
      intros j Hj. apply IH. lia.
    + right. intros j Hj.
      destruct (Nat.eq_dec j (S n)) as [->|Hne]; [assumption|].
      apply IH. lia.
Qed.

(** Each budget ends in a value below the limit or in a spent budget. *)
Lemma uniform_outcome fuel limit s :
  0 < limit < modulus32 ->
  (exists k, (k <= fuel)%nat /\
     accepts limit (nth_word s k) = true /\
     (forall j, (j < k)%nat -> accepts limit (nth_word s j) = false) /\
     arc4random_uniform fuel limit s =
     Done (candidate limit (nth_word s k)) (advance (S k) s)) \/
  ((forall j, (j <= fuel)%nat -> accepts limit (nth_word s j) = false) /\
   arc4random_uniform fuel limit s = OutOfFuel).
Proof.
  intros Hl.
  destruct (first_or_none (fun i => accepts limit (nth_word s i)) fuel)
    as [(k & Hk & Hacc & Hmin)|Hnone].
  - left. exists k. repeat split; try assumption.
    now apply uniform_first.
  - right. split; [assumption|]. now apply uniform_spent.
Qed.

End FirstAccepted.

(** ** The model on concrete inputs *)

Section Examples.

Example residue_3 : residue 3 = 1.
Proof. reflexivity. Qed.

Example residue_10 : residue 10 = 6.
Proof. reflexivity. Qed.

Example residue_max : residue UINT32_MAX = 1.
Proof. reflexivity. Qed.

Example uniform_3_counting :
  arc4random_uniform 5 3 counting_source = Done 0 (advance 2 counting_source).
Proof. reflexivity. Qed.

Example uniform_10_high_word :
  arc4random_uniform 0 10 (constant_source 4000000000) =
  Done 9 (advance 1 (constant_source 4000000000)).
Proof. reflexivity. Qed.

Example uniform_3_stuck :
  arc4random_uniform 20 3 (constant_source 0) = OutOfFuel.
Proof. reflexivity. Qed.

(** The words that yield 1 under limit 3 start at 1431655766. *)
Example yields_3_1_edges :
  first_yielding 3 1 = 1431655766 /\
  yields 3 1 1431655765 = false /\
  yields 3 1 1431655766 = true /\
  yields 3 1 (1431655766 + modulus32 / 3 - 1) = true /\
  yields 3 1 (1431655766 + modulus32 / 3) = false.
Proof. repeat split. Qed.

(** The code sets no bound on the number of draws: under limit 3 a
    source that starts with [n] zero words needs [n] runs of the loop
    body. *)
Lemma no_iteration_bound n :
  arc4random_uniform n 3 (zeros_then n 1) =
    Done 0 (advance (S n) (zeros_then n 1)) /\
  forall fuel, (fuel < n)%nat ->
    arc4random_uniform fuel 3 (zeros_then n 1) = OutOfFuel.
Proof.
  assert (H3 : 0 < 3 < modulus32) by (rewrite modulus32_eq; lia).
  assert (Hzero : forall j, (j < n)%nat ->
            accepts 3 (nth_word (zeros_then n 1) j) = false).
  { intros j Hj. unfold nth_word, zeros_then, replay. cbn [words drawn].
    apply Nat.ltb_lt in Hj. rewrite Nat.add_0_l, Hj. reflexivity. }
  split.
  - rewrite (uniform_first n n 3 _ H3 Hzero); [|  |lia].
    + f_equal. unfold nth_word, zeros_then, replay. cbn [words drawn].
      rewrite Nat.add_0_l, Nat.ltb_irrefl. reflexivity.
    + unfold nth_word, zeros_then, replay. cbn [words drawn].
      rewrite Nat.add_0_l, Nat.ltb_irrefl. reflexivity.
  - intros fuel Hfuel. apply uniform_spent; [assumption|].
    intros j Hj. apply Hzero. lia.
Qed.

End Examples.

(** ** Properties of [arc4random_uniform] *)

(** C1. For a limit between 1 and 2^32-1 and a value [v] below the
    limit, exactly [floor(2^32 / limit)] of the 2^32 words are accepted
    on a single draw with candidate [v]: the number does not depend on
    [v], so a uniform word source makes every value equally likely. *)
Theorem unbiased limit v :
  1 <= limit <= UINT32_MAX -> 0 <= v < limit ->
  count_words (fun w => accepts limit w && (candidate limit w =? v)) =
  modulus32 / limit.
Proof.
  intros Hl Hv. apply (count_yields limit v); [|assumption].
  now apply limit_range.
Qed.

Lemma unbiased_witness :
  1 <= 3 <= UINT32_MAX /\ 0 <= 1 < 3 /\
  count_words (fun w => accepts 3 w && (candidate 3 w =? 1)) = modulus32 / 3.
Proof.
  assert (H3 : 1 <= 3 <= UINT32_MAX) by (unfold UINT32_MAX, modulus32; lia).
  assert (H1 : 0 <= 1 < 3) by lia.
  split; [exact H3|]. split; [exact H1|].
  exact (unbiased 3 1 H3 H1).
Defined.

(** C2. For a limit between 1 and 2^32-1 and every source, a value the
    call returns is below the limit, whatever the iteration budget; the
    call never divides by zero, and it does return a value as soon as
    the source holds an accepted word. *)
Theorem result_below_limit limit s :
  1 <= limit <= UINT32_MAX ->
  (forall fuel v s',
     arc4random_uniform fuel limit s = Done v s' -> 0 <= v < limit) /\
  (forall fuel, arc4random_uniform fuel limit s <> DivideByZero) /\
  ((exists i, accepts limit (nth_word s i) = true) ->
   exists v s', returns limit s v s' /\ 0 <= v < limit).
Proof.
  intros Hl. apply limit_range in Hl.
  assert (Hcand : forall k, 0 <= candidate limit (nth_word s k) < limit).
  { intros k. split; [apply candidate_nonneg|].
    apply candidate_lt_limit; [apply nth_word_range|assumption]. }
  split; [|split].
  - intros fuel v s' Hrun.
    destruct (uniform_outcome fuel limit s Hl)
      as [(k & _ & _ & _ & Hk)|[_ Hout]]; rewrite Hrun in *.
    + injection Hk as -> _. apply Hcand.
    + discriminate.
  - intros fuel Hrun.
    destruct (uniform_outcome fuel limit s Hl)
      as [(k & _ & _ & _ & Hk)|[_ Hout]]; rewrite Hrun in *; discriminate.
  - intros [i Hi].
    destruct (first_or_none (fun n => accepts limit (nth_word s n)) i)
      as [(k & Hk & Hacc & Hmin)|Hnone].
    + exists (candidate limit (nth_word s k)), (advance (S k) s).
      split; [|apply Hcand]. exists k. now apply uniform_first.
    + rewrite (Hnone i) in Hi by lia. discriminate.
Qed.

Lemma result_below_limit_witness :
  1 <= 3 <= UINT32_MAX /\
  arc4random_uniform 1 3 counting_source = Done 0 (advance 2 counting_source) /\
  0 <= 0 < 3.
Proof.
  assert (H3 : 1 <= 3 <= UINT32_MAX) by (unfold UINT32_MAX, modulus32; lia).
  assert (Hrun : arc4random_uniform 1 3 counting_source =
                 Done 0 (advance 2 counting_source)) by reflexivity.
  split; [exact H3|]. split; [exact Hrun|].
  exact (proj1 (result_below_limit 3 counting_source H3) _ _ _ Hrun).
Defined.

(** C4. For a limit between 1 and 2^32-1, the 32-bit computation
    [(uint32_t)(-limit) % limit] is the remainder of 2^32 divided by the
    limit, and that is what the slow path computes. *)
Theorem residue_is_remainder limit :
  1 <= limit <= UINT32_MAX ->
  neg32 limit mod limit = 2 ^ 32 mod limit /\
  forall s, umod32 (neg32 limit) limit s = Done (2 ^ 32 mod limit) s.
Proof.
  intros Hl. apply limit_range in Hl.
  pose proof (residue_eq limit Hl) as Hr. unfold residue in Hr.
  fold modulus32. split; [exact Hr|].
  intros s. unfold umod32.
  destruct (Z.eqb_spec limit 0) as [H0|_]; [lia|]. now rewrite Hr.
Qed.

Lemma residue_is_remainder_witness :
  1 <= 10 <= UINT32_MAX /\ neg32 10 mod 10 = 2 ^ 32 mod 10.
Proof.
  assert (H10 : 1 <= 10 <= UINT32_MAX) by (unfold UINT32_MAX, modulus32; lia).
  split; [exact H10|].
  exact (proj1 (residue_is_remainder 10 H10)).
Defined.

(** C10. For a limit between 1 and 2^32-1 the residue is below the
    limit, so a word the fast-path test [frac >= limit] accepts is also
    accepted by the exact test [frac >= residue]. *)
Theorem fast_path_sound limit :
  1 <= limit <= UINT32_MAX ->
  residue limit < limit /\
  forall w, fast_accepts limit w = true -> accepts limit w = true.
Proof.
  intros Hl. apply limit_range in Hl.
  pose proof (residue_range limit Hl) as Hr.
  split; [lia|].
  intros w Hw. apply fast_accepts_spec in Hw. apply accepts_spec. lia.
Qed.

Lemma fast_path_sound_witness :
  1 <= 3 <= UINT32_MAX /\ residue 3 < 3 /\
  fast_accepts 3 2 = true /\ accepts 3 2 = true.
Proof.
  assert (H3 : 1 <= 3 <= UINT32_MAX) by (unfold UINT32_MAX, modulus32; lia).
  assert (Hfast : fast_accepts 3 2 = true) by reflexivity.
  split; [exact H3|].
  split; [exact (proj1 (fast_path_sound 3 H3))|].
  split; [exact Hfast|].
  exact (proj2 (fast_path_sound 3 H3) 2 Hfast).
Defined.

(** C7. With limit 1 the call returns 0 for every source, after a
    single draw and without running the loop body. *)
Theorem limit_one_returns_zero s fuel :
  arc4random_uniform fuel 1 s = Done 0 (advance 1 s).
Proof.
  assert (H1 : 0 < 1 < modulus32) by (rewrite modulus32_eq; lia).
  rewrite (uniform_first 0 fuel 1 s H1).
  - f_equal.
    pose proof (candidate_nonneg 1 (nth_word s 0)).
    pose proof (candidate_lt_limit 1 (nth_word s 0) (nth_word_range s 0) H1).
    lia.
  - intros j Hj. lia.
  - apply accepts_spec.
    pose proof (residue_range 1 H1). pose proof (frac_range 1 (nth_word s 0)) as Hf.
    unfold is_u32 in Hf. lia.
  - lia.
Qed.

(** C9. With limit 0 the [if] guard [(uint32_t)num < limit] is false
    for every word, so the [%] is not executed: whatever the source and
    the budget, the call draws one word and returns 0. *)
Theorem limit_zero_returns_zero s fuel :
  (forall w, (lo32 (mul64 w 0) <? 0) = false) /\
  arc4random_uniform fuel 0 s = Done 0 (advance 1 s) /\
  drawn (advance 1 s) = S (drawn s) /\
  arc4random_uniform fuel 0 s <> DivideByZero.
Proof.
  split; [exact guard_zero|]. rewrite uniform_zero.
  split; [reflexivity|]. split; [|discriminate].
  unfold advance. simpl. lia.
Qed.

(** C3, refuted as stated.  A call with limit 0 on a source that only
    yields the word 7 hands back the value 0: the argument is not
    refused. *)
Lemma limit_zero_not_refused :
  arc4random_uniform 0 0 (constant_source 7) =
    Done 0 (advance 1 (constant_source 7)) /\
  ~ rejects_argument 0 (constant_source 7).
Proof.
  assert (Hrun : arc4random_uniform 0 0 (constant_source 7) =
                 Done 0 (advance 1 (constant_source 7))) by reflexivity.
  split; [exact Hrun|].
  intros Hrej. exact (Hrej _ _ _ Hrun).
Qed.

(** C3, as the code has it.  A call with limit 0 neither divides by
    zero nor loops: for every source and budget it finishes with a
    value, so no error condition is raised. *)
Theorem limit_zero_returns_normally s fuel :
  (exists v s', arc4random_uniform fuel 0 s = Done v s') /\
  arc4random_uniform fuel 0 s <> DivideByZero /\
  arc4random_uniform fuel 0 s <> OutOfFuel /\
  ~ rejects_argument 0 s.
Proof.
  pose proof (uniform_zero fuel s) as Hrun.
  split; [now exists 0, (advance 1 s)|].
  rewrite Hrun. split; [discriminate|]. split; [discriminate|].
  intros Hrej. exact (Hrej _ _ _ Hrun).
Qed.

(** C6. With limit 3 the residue is 1 and the word 0 has fraction 0.
    When the first word of the source falls in the rejection sliver and
    the second does not, the loop body runs once: the call draws two
    words and returns the candidate of the second. *)
Theorem forced_rejection s :
  frac 3 (nth_word s 0) < residue 3 ->
  residue 3 <= frac 3 (nth_word s 1) ->
  residue 3 = 1 /\ frac 3 0 = 0 /\
  arc4random_uniform 0 3 s = OutOfFuel /\
  forall fuel, (1 <= fuel)%nat ->
    arc4random_uniform fuel 3 s = Done (candidate 3 (nth_word s 1)) (advance 2 s).
Proof.
  intros Hrej Hacc.
  assert (H3 : 0 < 3 < modulus32) by (rewrite modulus32_eq; lia).
  split; [reflexivity|]. split; [reflexivity|]. split.
  - apply uniform_spent; [assumption|].
    intros j Hj. replace j with 0%nat by lia. now apply accepts_false.
  - intros fuel Hfuel. apply uniform_first; try assumption.
    + intros j Hj. replace j with 0%nat by lia. now apply accepts_false.
    + now apply accepts_spec.
Qed.

Lemma forced_rejection_witness :
  frac 3 (nth_word (two_words 0 2147483653) 0) < residue 3 /\
  residue 3 <= frac 3 (nth_word (two_words 0 2147483653) 1) /\
  arc4random_uniform 1 3 (two_words 0 2147483653) =
    Done 1 (advance 2 (two_words 0 2147483653)).
Proof.
  assert (Hrej : frac 3 (nth_word (two_words 0 2147483653) 0) < residue 3) by reflexivity.
  assert (Hacc : residue 3 <= frac 3 (nth_word (two_words 0 2147483653) 1))
    by (vm_compute; discriminate).
  split; [exact Hrej|]. split; [exact Hacc|].
  exact (proj2 (proj2 (proj2 (forced_rejection (two_words 0 2147483653) Hrej Hacc)))
           1%nat (le_n 1)).
Defined.

Lemma pow2_range k : 0 <= k <= 31 -> 0 < 2 ^ k < modulus32.
Proof.
  intros Hk. split.
  - apply Z.pow_pos_nonneg; lia.
  - unfold modulus32. apply Z.pow_lt_mono_r; lia.
Qed.

Lemma pow2_factor k : 0 <= k <= 31 -> modulus32 = 2 ^ k * 2 ^ (32 - k).
Proof.
  intros Hk. rewrite <- Z.pow_add_r by lia. unfold modulus32.
  f_equal. lia.
Qed.

Lemma pow2_residue k : 0 <= k <= 31 -> residue (2 ^ k) = 0.
Proof.
  intros Hk. rewrite residue_eq by now apply pow2_range.
  rewrite (pow2_factor k Hk), Z.mul_comm. apply Z.mod_mul.
  pose proof (pow2_range k Hk). lia.
Qed.

(** C5, refuted as stated.  With the power of two 65536 the word 0 has
    fraction 0, which fails the fast-path test: the call goes through
    the slow path, where it returns without running the loop body. *)
Lemma pow2_enters_slow_path :
  65536 = 2 ^ 16 /\
  fast_accepts 65536 0 = false /\
  arc4random_uniform 0 65536 (constant_source 0) =
    Done 0 (advance 1 (constant_source 0)).
Proof. repeat split. Qed.

(** C5, as the code has it.  For a power of two limit between 1 and
    2^31 the residue is 0, every word passes the exact test, and the
    call returns the candidate of the first word even with no budget
    for the loop body: exactly one word is drawn.  The fast-path test
    fails exactly for the words whose fraction is 0, which go through
    the slow path without a redraw. *)
Theorem pow2_single_draw k :
  0 <= k <= 31 ->
  residue (2 ^ k) = 0 /\
  (forall w, accepts (2 ^ k) w = true) /\
  (forall s fuel,
     arc4random_uniform fuel (2 ^ k) s =
     Done (candidate (2 ^ k) (nth_word s 0)) (advance 1 s)) /\
  (forall w, is_u32 w ->
     (fast_accepts (2 ^ k) w = false <-> frac (2 ^ k) w = 0)).
Proof.
  intros Hk. pose proof (pow2_range k Hk) as Hl.
  pose proof (pow2_residue k Hk) as Hr.
  assert (Hacc : forall w, accepts (2 ^ k) w = true).
  { intros w. apply accepts_spec. rewrite Hr.
    pose proof (frac_range (2 ^ k) w) as Hf. unfold is_u32 in Hf. lia. }
  split; [exact Hr|]. split; [exact Hacc|]. split.
  - intros s fuel. apply uniform_first; [assumption| |apply Hacc|lia].
    intros j Hj. lia.
  - intros w Hw. unfold fast_accepts. rewrite negb_false_iff, Z.ltb_lt.
    rewrite frac_eq by (unfold is_u32 in *; lia).
    rewrite (pow2_factor k Hk), (Z.mul_comm w).
    assert (Hq : 0 < 2 ^ (32 - k)) by (apply Z.pow_pos_nonneg; lia).
    rewrite Z.mul_mod_distr_l by lia.
    pose proof (Z.mod_pos_bound w (2 ^ (32 - k)) Hq) as Hm.
    destruct Hl as [Hl _]. revert Hl Hm.
    generalize (w mod 2 ^ (32 - k)) (2 ^ k). intros m l Hl Hm.
    destruct (Z.eq_dec m 0) as [->|Hne].
    + rewrite Z.mul_0_r. lia.
    + assert (l * 1 <= l * m) by (apply Z.mul_le_mono_nonneg_l; lia). lia.
Qed.

Lemma pow2_single_draw_witness :
  0 <= 16 <= 31 /\ residue (2 ^ 16) = 0 /\
  arc4random_uniform 0 (2 ^ 16) counting_source =
    Done (candidate (2 ^ 16) (nth_word counting_source 0))
         (advance 1 counting_source).
Proof.
  assert (Hk : 0 <= 16 <= 31) by lia.
  split; [exact Hk|].
  split; [exact (proj1 (pow2_single_draw 16 Hk))|].
  exact (proj1 (proj2 (proj2 (pow2_single_draw 16 Hk))) counting_source 0%nat).
Defined.

(** C8. For a limit between 1 and 2^32-1 and every source: when some
    word is accepted, the call returns the candidate of the first
    accepted word after drawing the words up to it, needing one run of
    the loop body per rejected word; when no word of the source is ever
    accepted, every budget runs out and the call returns nothing. *)
Theorem returns_first_accepted limit s :
  1 <= limit <= UINT32_MAX ->
  (forall k,
     accepts limit (nth_word s k) = true ->
     (forall j, (j < k)%nat -> accepts limit (nth_word s j) = false) ->
     returns limit s (candidate limit (nth_word s k)) (advance (S k) s) /\
     (forall fuel, (k <= fuel)%nat ->
        arc4random_uniform fuel limit s =
        Done (candidate limit (nth_word s k)) (advance (S k) s)) /\
     (forall fuel, (fuel < k)%nat ->
        arc4random_uniform fuel limit s = OutOfFuel)) /\
  ((exists i, accepts limit (nth_word s i) = true) ->
   exists k,
     accepts limit (nth_word s k) = true /\
     (forall j, (j < k)%nat -> accepts limit (nth_word s j) = false) /\
     returns limit s (candidate limit (nth_word s k)) (advance (S k) s)) /\
  ((forall i, accepts limit (nth_word s i) = false) ->
   never_returns limit s /\ forall v s', ~ returns limit s v s').
Proof.
  intros Hl. apply limit_range in Hl.
  assert (Hfirst : forall k,
     accepts limit (nth_word s k) = true ->
     (forall j, (j < k)%nat -> accepts limit (nth_word s j) = false) ->
     returns limit s (candidate limit (nth_word s k)) (advance (S k) s)).
  { intros k Hacc Hmin. exists k. now apply uniform_first. }
  split; [|split].
  - intros k Hacc Hmin. split; [now apply Hfirst|]. split.
    + intros fuel Hfuel. now apply uniform_first.
    + intros fuel Hfuel. apply uniform_spent; [assumption|].
      intros j Hj. apply Hmin. lia.
  - intros [i Hi].
    destruct (first_or_none (fun n => accepts limit (nth_word s n)) i)
      as [(k & Hk & Hacc & Hmin)|Hnone].
    + exists k. split; [assumption|]. split; [assumption|]. now apply Hfirst.
    + rewrite (Hnone i) in Hi by lia. discriminate.
  - intros Hnone.
    assert (Hnever : never_returns limit s).
    { intros fuel. apply uniform_spent; [assumption|]. intros j _. apply Hnone. }
    split; [exact Hnever|].
    intros v s' [fuel Hrun]. rewrite (Hnever fuel) in Hrun. discriminate.
Qed.

Lemma returns_first_accepted_witness :
  1 <= 3 <= UINT32_MAX /\
  returns 3 counting_source 0 (advance 2 counting_source) /\
  never_returns 3 (constant_source 0).
Proof.
  assert (H3 : 1 <= 3 <= UINT32_MAX) by (unfold UINT32_MAX, modulus32; lia).
  split; [exact H3|]. split.
  - refine (proj1 (proj1 (returns_first_accepted 3 counting_source H3) 1%nat _ _)).
    + reflexivity.
    + intros j Hj. replace j with 0%nat by lia. reflexivity.
  - refine (proj1 (proj2 (proj2 (returns_first_accepted 3 (constant_source 0) H3)) _)).
    intros i. reflexivity.
Defined.

(** ** Sums and counts *)

Section Sums.

Lemma sum_below_ext g h m :
  (forall v, 0 <= v < Z.of_nat m -> g v = h v) ->
  sum_below g m = sum_below h m.
Proof.
  induction m as [|m IH]; intros H; [reflexivity|].
  cbn [sum_below]. rewrite IH, (H (Z.of_nat m)) by (intros; try apply H; lia).
  reflexivity.
Qed.

Lemma sum_below_add g h m :
  sum_below (fun v => g v + h v) m = sum_below g m + sum_below h m.
Proof.
  induction m as [|m IH]; [reflexivity|]. cbn [sum_below]. rewrite IH. ring.
Qed.

Lemma sum_below_const c m : sum_below (fun _ => c) m = Z.of_nat m * c.
Proof.
  induction m as [|m IH]; [reflexivity|]. cbn [sum_below]. rewrite IH. lia.
Qed.

Lemma sum_below_scale c g m :
  sum_below (fun v => c * g v) m = c * sum_below g m.
Proof.
  induction m as [|m IH]; [cbn; ring|]. cbn [sum_below]. rewrite IH. ring.
Qed.

(** Summing the indicator of a predicate counts it. *)
Lemma sum_below_count (P : Z -> bool) n :
  sum_below (fun w => if P w then 1 else 0) n = count_below P n.
Proof.
  induction n as [|n IH]; [reflexivity|].
  cbn [sum_below count_below]. now rewrite IH.
Qed.

Lemma sum_below_select (P : Z -> bool) c n :
  sum_below (fun w => if P w then c else 0) n = c * count_below P n.
Proof.
  rewrite <- sum_below_count, <- sum_below_scale.
  apply sum_below_ext. intros v _. destruct (P v); ring.
Qed.

Lemma sum_below_point x m :
  0 <= x < Z.of_nat m ->
  sum_below (fun v => if x =? v then 1 else 0) m = 1.
Proof.
  induction m as [|m IH]; intros Hx; [lia|]. cbn [sum_below].
  destruct (Z.eqb_spec x (Z.of_nat m)) as [->|Hne].
  - rewrite (sum_below_ext _ (fun _ => 0)).
    + rewrite sum_below_const. lia.
    + intros v Hv. destruct (Z.eqb_spec (Z.of_nat m) v); [lia|reflexivity].
  - rewrite IH by lia. lia.
Qed.

Lemma count_below_ext (P Q : Z -> bool) n :
  (forall w, 0 <= w < Z.of_nat n -> P w = Q w) ->
  count_below P n = count_below Q n.
Proof.
  intros H. rewrite <- !sum_below_count. apply sum_below_ext.
  intros v Hv. now rewrite H.
Qed.

Lemma count_below_range (P : Z -> bool) n : 0 <= count_below P n <= Z.of_nat n.
Proof.
  induction n as [|n IH]; cbn [count_below]; [lia|].
  destruct (P (Z.of_nat n)); lia.
Qed.

(** A predicate and its negation split the range. *)
Lemma count_below_negb (P : Z -> bool) n :
  count_below P n + count_below (fun w => negb (P w)) n = Z.of_nat n.
Proof.
  induction n as [|n IH]; cbn [count_below]; [reflexivity|].
  destruct (P (Z.of_nat n)); cbn [negb]; lia.
Qed.

Lemma count_below_split (P A : Z -> bool) n :
  count_below P n =
  count_below (fun w => A w && P w) n +
  count_below (fun w => negb (A w) && P w) n.
Proof.
  induction n as [|n IH]; cbn [count_below]; [reflexivity|].
  rewrite IH. destruct (A (Z.of_nat n)), (P (Z.of_nat n)); cbn; lia.
Qed.

(** Counting by the value of a function [f] with values in [[0, m)]. *)
Lemma count_below_partition (P : Z -> bool) (f : Z -> Z) m n :
  (forall w, 0 <= w < Z.of_nat n -> P w = true -> 0 <= f w < Z.of_nat m) ->
  count_below P n =
  sum_below (fun v => count_below (fun w => P w && (f w =? v)) n) m.
Proof.
  induction n as [|n IH]; intros Hf.
  - cbn [count_below]. now rewrite sum_below_const, Z.mul_0_r.
  - cbn [count_below].
    rewrite (sum_below_add
               (fun v => count_below (fun w => P w && (f w =? v)) n)
               (fun v => if P (Z.of_nat n) && (f (Z.of_nat n) =? v)
                         then 1 else 0)).
    rewrite <- IH by (intros w Hw; apply Hf; lia). f_equal.
    destruct (P (Z.of_nat n)) eqn:E; cbn [andb].
    + symmetry. apply sum_below_point. apply Hf; [lia|assumption].
    + now rewrite sum_below_const, Z.mul_0_r.
Qed.

Lemma count_below_le (P Q : Z -> bool) n :
  (forall w, 0 <= w < Z.of_nat n -> P w = true -> Q w = true) ->
  count_below P n <= count_below Q n.
Proof.
  induction n as [|n IH]; intros H; cbn [count_below]; [lia|].
  specialize (IH ltac:(intros w Hw; apply H; lia)).
  destruct (P (Z.of_nat n)) eqn:E.
  - rewrite (H (Z.of_nat n)) by (assumption || lia). lia.
  - destruct (Q (Z.of_nat n)); lia.
Qed.

End Sums.

(** ** How many words each test lets through *)

Section CountWords.

Lemma words32_eq : Z.of_nat (Z.to_nat modulus32) = modulus32.
Proof. apply Z2Nat.id. rewrite modulus32_eq. lia. Qed.

Lemma count_words_interval (P : Z -> bool) a b :
  0 <= a <= b -> b <= modulus32 ->
  (forall w, is_u32 w -> (P w = true <-> a <= w < b)) ->
  count_words P = b - a.
Proof.
  intros Hab Hb HP. unfold count_words. apply count_below_interval.
  - assumption.
  - now rewrite words32_eq.
  - rewrite words32_eq. exact HP.
Qed.

Lemma count_words_partition (P : Z -> bool) (f : Z -> Z) m :
  (forall w, is_u32 w -> P w = true -> 0 <= f w < Z.of_nat m) ->
  count_words P =
  sum_below (fun v => count_words (fun w => P w && (f w =? v))) m.
Proof.
  intros Hf. unfold count_words. apply count_below_partition.
  rewrite words32_eq. exact Hf.
Qed.

Lemma count_words_negb (P : Z -> bool) :
  count_words P + count_words (fun w => negb (P w)) = modulus32.
Proof.
  unfold count_words. rewrite count_below_negb. apply words32_eq.
Qed.

Lemma count_words_split (P A : Z -> bool) :
  count_words P =
  count_words (fun w => A w && P w) + count_words (fun w => negb (A w) && P w).
Proof. unfold count_words. apply count_below_split. Qed.

Lemma count_words_le (P Q : Z -> bool) :
  (forall w, is_u32 w -> P w = true -> Q w = true) ->
  count_words P <= count_words Q.
Proof.
  intros H. unfold count_words. apply count_below_le.
  rewrite words32_eq. exact H.
Qed.

Lemma count_words_ext (P Q : Z -> bool) :
  (forall w, is_u32 w -> P w = Q w) -> count_words P = count_words Q.
Proof.
  intros H. unfold count_words. apply count_below_ext.
  rewrite words32_eq. exact H.
Qed.

Lemma count_words_nonneg (P : Z -> bool) : 0 <= count_words P.
Proof. exact (proj1 (count_below_range P (Z.to_nat modulus32))). Qed.

End CountWords.

Section WordCounts.

Variable limit : Z.
Hypothesis limit_pos : 0 < limit < modulus32.

Lemma quotient_pos : 1 <= modulus32 / limit.
Proof. apply Z.div_le_lower_bound; lia. Qed.

Lemma candidate_range w :
  is_u32 w -> 0 <= candidate limit w < limit.
Proof.
  intros Hw. split; [apply candidate_nonneg|now apply candidate_lt_limit].
Qed.

Lemma candidate_index w :
  is_u32 w -> 0 <= candidate limit w < Z.of_nat (Z.to_nat limit).
Proof. intros Hw. rewrite Z2Nat.id by lia. now apply candidate_range. Qed.

Lemma rejects_takes_slow_path w :
  rejects limit w = true -> takes_slow_path limit w = true.
Proof.
  unfold rejects, takes_slow_path. rewrite !Z.ltb_lt.
  pose proof (residue_range limit limit_pos). lia.
Qed.

(** The accepted words are the [N = limit * floor(2^32 / limit)] valid
    values. *)
Lemma count_accepts :
  count_words (accepts limit) = limit * (modulus32 / limit).
Proof.
  rewrite (count_words_partition (accepts limit) (candidate limit)
             (Z.to_nat limit)).
  - rewrite (sum_below_ext _ (fun _ => modulus32 / limit)).
    + rewrite sum_below_const, Z2Nat.id by lia. reflexivity.
    + intros v Hv. rewrite Z2Nat.id in Hv by lia.
      exact (count_yields limit v limit_pos Hv).
  - intros w Hw _. now apply candidate_index.
Qed.

Lemma count_rejects : count_words (rejects limit) = residue limit.
Proof.
  pose proof (count_words_negb (rejects limit)) as Hsplit.
  pose proof count_accepts as Hacc. unfold accepts in Hacc.
  unfold rejects in *.
  pose proof (valid_range_multiple limit limit_pos). lia.
Qed.

(** A rejection is never more likely than an acceptance. *)
Lemma residue_half : 2 * residue limit < modulus32.
Proof.
  pose proof (valid_range_multiple limit limit_pos) as HM.
  pose proof (residue_range limit limit_pos) as Hr.
  pose proof quotient_pos as Hq. nia.
Qed.

(** Taking the slow path with candidate [v] is a condition on the
    product, met by one word only. *)
Lemma slow_path_product v w :
  is_u32 w ->
  (takes_slow_path limit w && (candidate limit w =? v) = true <->
   v * modulus32 <= w * limit < v * modulus32 + limit).
Proof.
  intros Hw. unfold takes_slow_path.
  rewrite andb_true_iff, Z.ltb_lt, Z.eqb_eq.
  assert (Hlim : is_u32 limit) by (unfold is_u32; lia).
  pose proof (product_split limit w Hw Hlim) as Hsplit.
  pose proof (frac_range limit w) as Hf. unfold is_u32 in Hf.
  generalize dependent (frac limit w). generalize dependent (candidate limit w).
  intros c f Hsplit Hf. split.
  - intros [Hfl Hc]. subst c. lia.
  - intros [Hlo Hhi]. assert (c = v) by nia. subst c. lia.
Qed.

Lemma slow_path_single v w :
  is_u32 w -> 0 <= v < limit ->
  (takes_slow_path limit w && (candidate limit w =? v) = true <->
   first_with_candidate limit v <= w < first_with_candidate limit v + 1).
Proof.
  intros Hw Hv. rewrite slow_path_product by assumption.
  unfold first_with_candidate.
  set (t := v * modulus32).
  replace (t + limit - 1) with (t + (limit - 1)) by ring.
  pose proof (Z.div_mod (t + (limit - 1)) limit ltac:(lia)) as Hdm.
  pose proof (Z.mod_pos_bound (t + (limit - 1)) limit ltac:(lia)) as Hmb.
  set (a := (t + (limit - 1)) / limit) in *.
  generalize dependent ((t + (limit - 1)) mod limit). intros m Hdm Hmb.
  split; intros [H1 H2]; split; nia.
Qed.

Lemma first_with_candidate_bounds v :
  0 <= v < limit ->
  0 <= first_with_candidate limit v /\
  first_with_candidate limit v + 1 <= modulus32.
Proof.
  intros Hv. unfold first_with_candidate.
  set (t := v * modulus32).
  assert (Ht : 0 <= t) by (unfold t; nia).
  assert (Htop : t + limit <= limit * modulus32) by (unfold t; nia).
  replace (t + limit - 1) with (t + (limit - 1)) by ring.
  pose proof (Z.div_mod (t + (limit - 1)) limit ltac:(lia)) as Hdm.
  pose proof (Z.mod_pos_bound (t + (limit - 1)) limit ltac:(lia)) as Hmb.
  set (a := (t + (limit - 1)) / limit) in *.
  generalize dependent ((t + (limit - 1)) mod limit). intros m Hdm Hmb.
  split; nia.
Qed.

Lemma count_slow_path_candidate v :
  0 <= v < limit ->
  count_words (fun w => takes_slow_path limit w && (candidate limit w =? v)) = 1.
Proof.
  intros Hv.
  destruct (first_with_candidate_bounds v Hv) as [Ha Hb].
  rewrite (count_words_interval _ (first_with_candidate limit v)
             (first_with_candidate limit v + 1)).
  - lia.
  - lia.
  - assumption.
  - intros w Hw. now apply slow_path_single.
Qed.

(** The fast-path test fails for [limit] words. *)
Lemma count_slow_path : count_words (takes_slow_path limit) = limit.
Proof.
  rewrite (count_words_partition (takes_slow_path limit) (candidate limit)
             (Z.to_nat limit)).
  - rewrite (sum_below_ext _ (fun _ => 1)).
    + rewrite sum_below_const, Z2Nat.id by lia. lia.
    + intros v Hv. rewrite Z2Nat.id in Hv by lia.
      exact (count_slow_path_candidate v Hv).
  - intros w Hw _. now apply candidate_index.
Qed.

(** Each candidate has at most one rejected word. *)
Lemma count_rejects_candidate v :
  0 <= v < limit ->
  0 <= count_words (fun w => rejects limit w && (candidate limit w =? v)) <= 1.
Proof.
  intros Hv. split; [apply count_words_nonneg|].
  rewrite <- (count_slow_path_candidate v Hv).
  apply count_words_le. intros w _ H. apply andb_true_iff in H as [Hr Hc].
  now rewrite (rejects_takes_slow_path w Hr), Hc.
Qed.

Lemma count_candidate v :
  0 <= v < limit ->
  count_words (fun w => candidate limit w =? v) =
  modulus32 / limit +
  count_words (fun w => rejects limit w && (candidate limit w =? v)).
Proof.
  intros Hv.
  rewrite (count_words_split (fun w => candidate limit w =? v) (accepts limit)).
  change (count_words (fun w => accepts limit w && (candidate limit w =? v)))
    with (count_words (yields limit v)).
  rewrite (count_yields limit v limit_pos Hv).
  apply Z.add_cancel_l. apply count_words_ext.
  intros w _. unfold accepts, rejects. now rewrite negb_involutive.
Qed.

Lemma sum_count_rejects :
  sum_below
    (fun v => count_words (fun w => rejects limit w && (candidate limit w =? v)))
    (Z.to_nat limit) = residue limit.
Proof.
  rewrite <- count_rejects. symmetry.
  apply count_words_partition.
  intros w Hw _. now apply candidate_index.
Qed.

End WordCounts.

(** ** Counting the word sequences behind each result *)

Section Sequences.

Variable limit : Z.
Hypothesis limit_pos : 0 < limit < modulus32.

Lemma nth_word_replay_list l j :
  nth_word (replay_list l) j = u32 (nth j l 0).
Proof. reflexivity. Qed.

(** The call returns [v] after the whole of [l] when the last word of
    [l] is the first accepted one and has candidate [v]. *)
Lemma returns_after_spec v l :
  returns_after limit v l = true <->
  exists k,
    length l = S k /\
    accepts limit (nth_word (replay_list l) k) = true /\
    (forall j, (j < k)%nat ->
       accepts limit (nth_word (replay_list l) j) = false) /\
    candidate limit (nth_word (replay_list l) k) = v.
Proof.
  unfold returns_after. split.
  - destruct (uniform_outcome (length l) limit (replay_list l) limit_pos)
      as [(k & Hk & Hacc & Hmin & Hrun)|[_ Hrun]]; rewrite Hrun;
      [|discriminate].
    intros H. apply andb_true_iff in H as [Hv Hlen].
    apply Z.eqb_eq in Hv. apply Nat.eqb_eq in Hlen. cbn in Hlen.
    exists k. repeat split; try assumption. now symmetry.
  - intros (k & Hlen & Hacc & Hmin & Hv).
    rewrite (uniform_first k (length l) limit (replay_list l))
      by (assumption || lia).
    apply andb_true_iff. split; [now apply Z.eqb_eq|].
    apply Nat.eqb_eq. cbn. now symmetry.
Qed.

Lemma returns_after_nil v : returns_after limit v [] = false.
Proof.
  apply not_true_is_false. intros H.
  apply returns_after_spec in H as (k & Hlen & _). discriminate.
Qed.

Lemma returns_after_one v w :
  is_u32 w -> returns_after limit v [w] = yields limit v w.
Proof.
  intros Hw. apply eq_true_iff_eq. rewrite returns_after_spec, yields_spec.
  rewrite <- accepts_spec. split.
  - intros (k & Hlen & Hacc & _ & Hv).
    assert (k = 0%nat) by (cbn in Hlen; lia). subst k.
    rewrite nth_word_replay_list in *. cbn [nth] in *.
    rewrite (u32_small w Hw) in *. now split.
  - intros [Hacc Hv]. exists 0%nat.
    rewrite nth_word_replay_list. cbn [nth]. rewrite (u32_small w Hw).
    repeat split; try assumption. intros j Hj. lia.
Qed.

Lemma returns_after_cons v w x l :
  is_u32 w ->
  returns_after limit v (w :: x :: l) =
  rejects limit w && returns_after limit v (x :: l).
Proof.
  intros Hw. apply eq_true_iff_eq.
  rewrite andb_true_iff, !returns_after_spec. split.
  - intros (k & Hlen & Hacc & Hmin & Hv).
    destruct k as [|k]; [discriminate|]. split.
    + specialize (Hmin 0%nat ltac:(lia)).
      rewrite nth_word_replay_list in Hmin. cbn [nth] in Hmin.
      rewrite (u32_small w Hw) in Hmin.
      unfold accepts in Hmin. now apply negb_false_iff in Hmin.
    + exists k. repeat split.
      * cbn [length] in *. lia.
      * exact Hacc.
      * intros j Hj. apply (Hmin (S j)). lia.
      * exact Hv.
  - intros [Hrej (k & Hlen & Hacc & Hmin & Hv)].
    exists (S k). repeat split.
    + cbn [length] in *. lia.
    + exact Hacc.
    + intros [|j] Hj.
      * rewrite nth_word_replay_list. cbn [nth]. rewrite (u32_small w Hw).
        unfold rejects in Hrej. unfold accepts. now rewrite Hrej.
      * apply (Hmin j). lia.
    + exact Hv.
Qed.

Lemma count_seqs_succ n P :
  count_seqs (S n) P =
  sum_below (fun w => count_seqs n (fun l => P (w :: l))) (Z.to_nat modulus32).
Proof. cbn [count_seqs]. reflexivity. Qed.

Lemma count_seqs_ext n : forall P Q,
  (forall l, length l = n -> Forall is_u32 l -> P l = Q l) ->
  count_seqs n P = count_seqs n Q.
Proof.
  induction n as [|n IH]; intros P Q H.
  - cbn [count_seqs]. now rewrite (H [] eq_refl (Forall_nil _)).
  - cbn [count_seqs]. apply sum_below_ext. intros w Hw.
    rewrite words32_eq in Hw. apply IH. intros l Hlen Hl.
    apply H; [cbn [length]; lia|now constructor].
Qed.

Lemma count_seqs_none n : count_seqs n (fun _ => false) = 0.
Proof.
  induction n as [|n IH]; [reflexivity|]. cbn [count_seqs].
  rewrite (sum_below_ext _ (fun _ => 0)) by (intros; apply IH).
  rewrite sum_below_const. lia.
Qed.

Lemma count_seqs_guard n (b : bool) P :
  count_seqs n (fun l => b && P l) = if b then count_seqs n P else 0.
Proof.
  destruct b.
  - apply count_seqs_ext. reflexivity.
  - apply count_seqs_none.
Qed.

Lemma sum_words_select (P : Z -> bool) c :
  sum_below (fun w => if P w then c else 0) (Z.to_nat modulus32) =
  c * count_words P.
Proof. unfold count_words. apply sum_below_select. Qed.

(** Sequences of one word more start with one more rejected word. *)
Lemma count_seqs_returns_step v n :
  count_seqs (S (S n)) (returns_after limit v) =
  residue limit * count_seqs (S n) (returns_after limit v).
Proof.
  rewrite <- (count_rejects limit limit_pos).
  rewrite Z.mul_comm, <- sum_words_select.
  rewrite (count_seqs_succ (S n)).
  apply sum_below_ext. intros w Hw. rewrite words32_eq in Hw.
  rewrite <- count_seqs_guard. apply count_seqs_ext.
  intros [|x l] Hlen _; [discriminate|].
  now apply returns_after_cons.
Qed.

Lemma count_seqs_returns_one v :
  0 <= v < limit ->
  count_seqs 1 (returns_after limit v) = modulus32 / limit.
Proof.
  intros Hv. rewrite <- (count_yields limit v limit_pos Hv).
  rewrite (count_seqs_succ 0). cbn [count_seqs].
  rewrite sum_words_select, Z.mul_1_l. apply count_words_ext.
  intros w Hw. now apply returns_after_one.
Qed.

Lemma count_seqs_returns v n :
  0 <= v < limit ->
  count_seqs (S n) (returns_after limit v) =
  residue limit ^ Z.of_nat n * (modulus32 / limit).
Proof.
  intros Hv. induction n as [|n IH].
  - rewrite count_seqs_returns_one by assumption.
    change (Z.of_nat 0) with 0. rewrite Z.pow_0_r. lia.
  - rewrite count_seqs_returns_step, IH.
    rewrite Nat2Z.inj_succ, Z.pow_succ_r by lia. ring.
Qed.

End Sequences.

(** ** Further facts about one draw *)

Section OneDraw.

Lemma resample_no_trap fuel : forall limit r num s,
  resample fuel limit r num s <> DivideByZero.
Proof.
  induction fuel as [|fuel IH]; intros limit r num s.
  - destruct (Z.lt_ge_cases (lo32 num) r) as [Hlt|Hge].
    + now rewrite resample_spent.
    + now rewrite resample_accept.
  - destruct (Z.lt_ge_cases (lo32 num) r) as [Hlt|Hge].
    + rewrite resample_reject by assumption. apply IH.
    + now rewrite resample_accept.
Qed.

Lemma uniform_no_trap fuel limit s :
  arc4random_uniform fuel limit s <> DivideByZero.
Proof.
  unfold arc4random_uniform, bind at 1. rewrite draw_eq. cbv zeta.
  unfold bind at 1.
  destruct (Z.ltb_spec (lo32 (mul64 (nth_word s 0) limit)) limit) as [Hlt|Hge].
  - unfold bind at 1, umod32.
    destruct (Z.eqb_spec limit 0) as [H0|Hne].
    + pose proof (u32_range (mul64 (nth_word s 0) limit)) as Hr.
      unfold lo32 in Hlt. unfold is_u32 in Hr. lia.
    + pose proof (resample_no_trap fuel limit (neg32 limit mod limit)
                    (mul64 (nth_word s 0) limit) (advance 1 s)) as Hloop.
      destruct (resample fuel limit (neg32 limit mod limit)
                  (mul64 (nth_word s 0) limit) (advance 1 s));
        [discriminate|contradiction|discriminate].
  - discriminate.
Qed.



Lemma candidate_monotone limit w1 w2 :
  is_u32 limit -> is_u32 w1 -> is_u32 w2 -> w1 <= w2 ->
  candidate limit w1 <= candidate limit w2.
Proof.
  intros Hl H1 H2 Hle. rewrite !candidate_eq by assumption.
  unfold is_u32 in *. apply Z.div_le_mono; nia.
Qed.

Lemma top_word_product limit :
  0 < limit < modulus32 ->
  candidate limit UINT32_MAX = limit - 1 /\
  frac limit UINT32_MAX = modulus32 - limit.
Proof.
  intros Hl.
  assert (Hmax : is_u32 UINT32_MAX) by (unfold is_u32, UINT32_MAX; lia).
  assert (Hlim : is_u32 limit) by (unfold is_u32; lia).
  pose proof (product_split limit UINT32_MAX Hmax Hlim) as Hsplit.
  pose proof (frac_range limit UINT32_MAX) as Hf.
  pose proof (candidate_nonneg limit UINT32_MAX) as Hc0.
  pose proof (candidate_lt_limit limit UINT32_MAX Hmax Hl) as Hc.
  unfold is_u32, UINT32_MAX in *.
  assert (candidate limit (modulus32 - 1) = limit - 1) by nia.
  split; [assumption|]. nia.
Qed.

Lemma top_word_accepted limit :
  0 < limit < modulus32 -> accepts limit UINT32_MAX = true.
Proof.
  intros Hl. apply accepts_spec.
  destruct (top_word_product limit Hl) as [_ ->].
  rewrite residue_eq by assumption.
  pose proof (valid_range_multiple limit Hl) as HM.
  rewrite residue_eq in HM by assumption.
  pose proof (quotient_pos limit Hl). nia.
Qed.

End OneDraw.

(** ** More properties of [arc4random_uniform] *)

(** X1. For a limit between 1 and 2^32-1 the accepted words are the
    [N = 2^32 - residue] valid values of the source comment: [N] is a
    multiple of the limit and the next multiple exceeds 2^32. *)
Theorem accepted_words_count limit :
  1 <= limit <= UINT32_MAX ->
  count_words (accepts limit) = modulus32 - residue limit /\
  modulus32 - residue limit = limit * (modulus32 / limit) /\
  modulus32 < modulus32 - residue limit + limit.
Proof.
  intros Hl. apply limit_range in Hl.
  pose proof (valid_range_multiple limit Hl) as HM.
  pose proof (residue_range limit Hl) as Hr.
  rewrite (count_accepts limit Hl). repeat split; lia.
Qed.

Lemma accepted_words_count_witness :
  1 <= 10 <= UINT32_MAX /\
  count_words (accepts 10) = modulus32 - residue 10.
Proof.
  assert (H10 : 1 <= 10 <= UINT32_MAX) by (unfold UINT32_MAX, modulus32; lia).
  split; [exact H10|].
  exact (proj1 (accepted_words_count 10 H10)).
Defined.

(** X2. For a limit between 1 and 2^32-1 exactly [residue] of the 2^32
    words satisfy the loop guard and are rejected, and they are fewer
    than half of all words. *)
Theorem rejected_words_count limit :
  1 <= limit <= UINT32_MAX ->
  count_words (rejects limit) = residue limit /\
  2 * residue limit < modulus32.
Proof.
  intros Hl. apply limit_range in Hl.
  split; [now apply count_rejects|now apply residue_half].
Qed.

Lemma rejected_words_count_witness :
  1 <= 10 <= UINT32_MAX /\
  count_words (rejects 10) = residue 10 /\ 2 * residue 10 < modulus32.
Proof.
  assert (H10 : 1 <= 10 <= UINT32_MAX) by (unfold UINT32_MAX, modulus32; lia).
  split; [exact H10|].
  exact (rejected_words_count 10 H10).
Defined.

(** X3. For a limit between 1 and 2^32-1 exactly [limit] of the 2^32
    words satisfy the [if] guard, so only those first words lead to the
    computation of the residue. *)
Theorem slow_path_words_count limit :
  1 <= limit <= UINT32_MAX ->
  count_words (takes_slow_path limit) = limit.
Proof. intros Hl. apply limit_range in Hl. now apply count_slow_path. Qed.

Lemma slow_path_words_count_witness :
  1 <= 10 <= UINT32_MAX /\ count_words (takes_slow_path 10) = 10.
Proof.
  assert (H10 : 1 <= 10 <= UINT32_MAX) by (unfold UINT32_MAX, modulus32; lia).
  split; [exact H10|].
  exact (slow_path_words_count 10 H10).
Defined.

(** X4. For a limit between 1 and 2^32-1 and a value [v] below it, the
    words with integer part [v] are the [floor(2^32 / limit)] accepted
    ones plus at most one rejected word, and over all values the
    rejected extras add up to the residue. *)
Theorem truncation_bias limit v :
  1 <= limit <= UINT32_MAX -> 0 <= v < limit ->
  count_words (fun w => candidate limit w =? v) =
    modulus32 / limit +
    count_words (fun w => rejects limit w && (candidate limit w =? v)) /\
  0 <= count_words (fun w => rejects limit w && (candidate limit w =? v)) <= 1 /\
  sum_below
    (fun u => count_words (fun w => rejects limit w && (candidate limit w =? u)))
    (Z.to_nat limit) = residue limit.
Proof.
  intros Hl Hv. apply limit_range in Hl. split; [|split].
  - now apply count_candidate.
  - now apply count_rejects_candidate.
  - now apply sum_count_rejects.
Qed.

Lemma truncation_bias_witness :
  1 <= 3 <= UINT32_MAX /\ 0 <= 1 < 3 /\
  count_words (fun w => candidate 3 w =? 1) =
    modulus32 / 3 +
    count_words (fun w => rejects 3 w && (candidate 3 w =? 1)).
Proof.
  assert (H3 : 1 <= 3 <= UINT32_MAX) by (unfold UINT32_MAX, modulus32; lia).
  assert (H1 : 0 <= 1 < 3) by lia.
  split; [exact H3|]. split; [exact H1|].
  exact (proj1 (truncation_bias 3 1 H3 H1)).
Defined.



(** X6. For a limit between 1 and 2^32-1 and a value [v] below it, the
    number of sequences of [n + 1] words on which the call returns [v]
    after drawing exactly those words is
    [residue ^ n * floor(2^32 / limit)]: it is the same for every [v],
    whatever the number of rejections. *)
Theorem unbiased_after_rejections limit v n :
  1 <= limit <= UINT32_MAX -> 0 <= v < limit ->
  count_seqs (S n) (returns_after limit v) =
  residue limit ^ Z.of_nat n * (modulus32 / limit).
Proof.
  intros Hl Hv. apply limit_range in Hl. now apply count_seqs_returns.
Qed.

Lemma unbiased_after_rejections_witness :
  1 <= 3 <= UINT32_MAX /\ 0 <= 1 < 3 /\
  count_seqs 3 (returns_after 3 1) =
  residue 3 ^ Z.of_nat 2 * (modulus32 / 3).
Proof.
  assert (H3 : 1 <= 3 <= UINT32_MAX) by (unfold UINT32_MAX, modulus32; lia).
  assert (H1 : 0 <= 1 < 3) by lia.
  split; [exact H3|]. split; [exact H1|].
  exact (unbiased_after_rejections 3 1 2 H3 H1).
Defined.

(** X7. The [%] never sees a zero divisor: whatever the limit, the
    source and the budget, the call does not divide by zero. *)
Theorem modulo_is_safe fuel limit s :
  arc4random_uniform fuel limit s <> DivideByZero.
Proof. apply uniform_no_trap. Qed.

(** X8. For 32-bit operands the 64-bit multiplication does not wrap:
    the product is the exact product of the word and the limit, and it
    is [2^32] times the integer part plus the fraction part. *)
Theorem product_is_exact limit w :
  is_u32 limit -> is_u32 w ->
  product limit w = w * limit /\
  w * limit = modulus32 * candidate limit w + frac limit w /\
  0 <= frac limit w < modulus32.
Proof.
  intros Hl Hw. split; [|split].
  - now apply mul64_exact.
  - now apply product_split.
  - apply frac_range.
Qed.

Lemma product_is_exact_witness :
  is_u32 10 /\ is_u32 4000000000 /\
  product 10 4000000000 = 4000000000 * 10 /\
  4000000000 * 10 = modulus32 * candidate 10 4000000000 + frac 10 4000000000.
Proof.
  assert (Hl : is_u32 10) by (unfold is_u32, modulus32; lia).
  assert (Hw : is_u32 4000000000) by (unfold is_u32, modulus32; lia).
  split; [exact Hl|]. split; [exact Hw|].
  split; [exact (proj1 (product_is_exact 10 4000000000 Hl Hw))|].
  exact (proj1 (proj2 (product_is_exact 10 4000000000 Hl Hw))).
Defined.

(** X9. For a limit between 1 and 2^32-1 the integer part grows with
    the word, from 0 for the word 0 up to [limit - 1] for the word
    2^32-1, and the word 2^32-1 is always accepted. *)
Theorem candidate_scaling limit :
  1 <= limit <= UINT32_MAX ->
  (forall w1 w2, is_u32 w1 -> is_u32 w2 -> w1 <= w2 ->
     candidate limit w1 <= candidate limit w2) /\
  candidate limit 0 = 0 /\
  candidate limit UINT32_MAX = limit - 1 /\
  accepts limit UINT32_MAX = true.
Proof.
  intros Hl. apply limit_range in Hl.
  assert (Hlim : is_u32 limit) by (unfold is_u32; lia).
  split; [|split; [|split]].
  - intros w1 w2. now apply candidate_monotone.
  - rewrite candidate_eq; [|unfold is_u32; lia|assumption].
    rewrite Z.mul_0_l. apply Z.div_0_l. lia.
  - apply (top_word_product limit Hl).
  - now apply top_word_accepted.
Qed.

Lemma candidate_scaling_witness :
  1 <= 10 <= UINT32_MAX /\
  candidate 10 UINT32_MAX = 10 - 1 /\ accepts 10 UINT32_MAX = true.
Proof.
  assert (H10 : 1 <= 10 <= UINT32_MAX) by (unfold UINT32_MAX, modulus32; lia).
  split; [exact H10|].
  exact (proj2 (proj2 (candidate_scaling 10 H10))).
Defined.

(** X10. For a limit between 1 and 2^32-1, a value the call returns is
    the integer part for the first accepted word of the source: the
    words drawn before it were all rejected, and the source is left
    right after it. *)
Theorem returned_value_is_first_accepted limit s fuel v s' :
  1 <= limit <= UINT32_MAX ->
  arc4random_uniform fuel limit s = Done v s' ->
  exists k,
    (k <= fuel)%nat /\
    s' = advance (S k) s /\
    v = candidate limit (nth_word s k) /\
    accepts limit (nth_word s k) = true /\
    forall j, (j < k)%nat -> rejects limit (nth_word s j) = true.
Proof.
  intros Hl Hrun. apply limit_range in Hl.
  destruct (uniform_outcome fuel limit s Hl)
    as [(k & Hk & Hacc & Hmin & Hdone)|[_ Hout]]; rewrite Hrun in *;
    [|discriminate].
  injection Hdone as -> ->. exists k. repeat split; try assumption.
  intros j Hj. specialize (Hmin j Hj).
  unfold accepts in Hmin. now apply negb_false_iff in Hmin.
Qed.

Lemma returned_value_is_first_accepted_witness :
  1 <= 3 <= UINT32_MAX /\
  arc4random_uniform 4 3 (zeros_then 2 2147483653) =
    Done 1 (advance 3 (zeros_then 2 2147483653)) /\
  exists k,
    (k <= 4)%nat /\
    advance 3 (zeros_then 2 2147483653) = advance (S k) (zeros_then 2 2147483653) /\
    1 = candidate 3 (nth_word (zeros_then 2 2147483653) k) /\
    accepts 3 (nth_word (zeros_then 2 2147483653) k) = true /\
    forall j, (j < k)%nat ->
      rejects 3 (nth_word (zeros_then 2 2147483653) j) = true.
Proof.
  assert (H3 : 1 <= 3 <= UINT32_MAX) by (unfold UINT32_MAX, modulus32; lia).
  assert (Hrun : arc4random_uniform 4 3 (zeros_then 2 2147483653) =
                 Done 1 (advance 3 (zeros_then 2 2147483653))) by reflexivity.
  split; [exact H3|]. split; [exact Hrun|].
  exact (returned_value_is_first_accepted 3 _ 4%nat 1 _ H3 Hrun).
Defined.

(** Sequences of words on which the call with limit 3 does or does not
    return 1 after drawing all of them. *)
Example returns_after_samples :
  returns_after 3 1 [2147483653] = true /\
  returns_after 3 1 [0; 2147483653] = true /\
  returns_after 3 1 [0; 0; 2147483653] = true /\
  returns_after 3 1 [2147483653; 5] = false /\
  returns_after 3 0 [0] = false /\
  returns_after 3 1 [] = false.
Proof. repeat split. Qed.
